(** * tailwind.config.js: the exported configuration record

    The repository consists of one CommonJS module whose only statement is
    [module.exports = { ... }], an object literal.  This development embeds
    that literal as a JavaScript value and states the schema-level
    properties of the configuration on it. *)

From Stdlib Require Import ZArith Ascii String List.
From stdpp Require Import base strings list gmap.

Local Open Scope string_scope.
Local Open Scope list_scope.

(** ** JavaScript values

    The fragment of JavaScript values an object literal can denote.  An
    object keeps its own properties as an association list in insertion
    order (the order [Object.keys] reports); [VFun] stands for any callable
    leaf (a function, a method, an accessor), of which only the source text
    is recorded.  Only what a value itself holds is modelled: its own named
    properties for an object, its elements for an array.  The properties a
    value inherits from its prototype ([toString], [constructor], ...), and
    the index and [length] properties of arrays and strings, are not part
    of the model. *)

Module Js.

Unset Elimination Schemes.
Inductive value : Type :=
| VStr (s : string)
| VBool (b : bool)
| VArr (xs : list value)
| VObj (props : list (string * value))
| VFun (src : string).
Set Elimination Schemes.

(** Induction over values, with the hypotheses for the nested lists. *)
Definition value_ind (P : value → Prop)
    (HStr : ∀ s, P (VStr s))
    (HBool : ∀ b, P (VBool b))
    (HArr : ∀ xs, Forall P xs → P (VArr xs))
    (HObj : ∀ props, Forall (λ kv, P kv.2) props → P (VObj props))
    (HFun : ∀ src, P (VFun src)) : ∀ v, P v :=
  fix go (v : value) : P v :=
    match v with
    | VStr s => HStr s
    | VBool b => HBool b
    | VArr xs =>
        HArr xs ((fix go_list (l : list value) : Forall P l :=
                    match l with
                    | [] => List.Forall_nil P
                    | x :: l' => List.Forall_cons P x l' (go x) (go_list l')
                    end) xs)
    | VObj props =>
        HObj props
          ((fix go_props (l : list (string * value)) : Forall (λ kv, P kv.2) l :=
              match l with
              | [] => List.Forall_nil _
              | kv :: l' => List.Forall_cons _ kv l' (go kv.2) (go_props l')
              end) props)
    | VFun src => HFun src
    end.

(** The own property named [k] in an association list of own properties:
    the first binding of [k]; [None] when there is no own property of that
    name. *)
Fixpoint assoc (k : string) (props : list (string * value)) : option value :=
  match props with
  | [] => None
  | (k', v) :: rest => if String.eqb k k' then Some v else assoc k rest
  end.

(** The own property [k] of an object, that is [v[k]] when
    [Object.hasOwn(v, k)]; [None] when [v] has no own property of that
    name (JavaScript would then go on to the prototype chain, which is not
    modelled) and for every value that is not an object (array elements
    are reached through [values]). *)
Definition get (k : string) (v : value) : option value :=
  match v with
  | VObj props => assoc k props
  | _ => None
  end.

(** Chained own-property lookup [v[k1][k2]...] through nested objects;
    [None] as soon as a name is not an own property. *)
Fixpoint get_path (path : list string) (v : value) : option value :=
  match path with
  | [] => Some v
  | k :: path' =>
      match get k v with
      | Some v' => get_path path' v'
      | None => None
      end
  end.

(** The own property names of an object, in order ([Object.keys(v)]);
    the index names of an array are not listed. *)
Definition keys (v : value) : list string :=
  match v with
  | VObj props => props.*1
  | _ => []
  end.

(** The own properties of an object, in order ([Object.entries(v)]). *)
Definition entries (v : value) : list (string * value) :=
  match v with
  | VObj props => props
  | _ => []
  end.

(** [Object.values(v)] for an object, the elements for an array. *)
Definition values (v : value) : list value :=
  match v with
  | VObj props => props.*2
  | VArr xs => xs
  | _ => []
  end.

(** All the leaves (values that are neither arrays nor objects), left to
    right. *)
Fixpoint leaves (v : value) : list value :=
  match v with
  | VArr xs => concat (map leaves xs)
  | VObj props => concat (map (λ kv, leaves kv.2) props)
  | _ => [v]
  end.

(** A value built from string literals, arrays and objects only. *)
Fixpoint literal_data (v : value) : bool :=
  match v with
  | VStr _ => true
  | VBool _ => false
  | VFun _ => false
  | VArr xs => forallb literal_data xs
  | VObj props => forallb (λ kv, literal_data kv.2) props
  end.

Definition is_string (v : value) : bool :=
  match v with VStr _ => true | _ => false end.

End Js.

Import Js.

(** ** The module export (tailwind.config.js, lines 2-21) *)

Definition custom_blue : value :=
  VObj [ ("light", VStr "#3b82f6");
         ("DEFAULT", VStr "#2563eb");
         ("dark", VStr "#1e40af") ].

Definition colors : value :=
  VObj [ ("custom-blue", custom_blue);
         ("light-bg", VStr "#ffffff");
         ("light-text", VStr "#1f2937");
         ("dark-bg", VStr "#111827");
         ("dark-text", VStr "#f9fafb") ].

Definition extend : value := VObj [ ("colors", colors) ].

Definition theme : value := VObj [ ("extend", extend) ].

Definition content : value := VArr [ VStr "./templates/**/*.html" ].

Definition plugins : value := VArr [].

Definition module_exports : value :=
  VObj [ ("darkMode", VStr "class");
         ("content", content);
         ("theme", theme);
         ("plugins", plugins) ].

(** The top-level keys the schema recognises: dark-mode strategy,
    content-scan paths, theme extension, plugin list. *)
Definition recognized_keys : gset string :=
  {[ "darkMode"; "content"; "theme"; "plugins" ]}.

(** A dark-mode flag is a boolean or a string. *)
Definition is_mode_flag (v : value) : bool :=
  match v with
  | VBool _ | VStr _ => true
  | _ => false
  end.

(** ** The colour extension *)

(** A hexadecimal digit and its value. *)
Definition hex_digit (c : ascii) : option N :=
  let n := N_of_ascii c in
  if (48 <=? n)%N && (n <=? 57)%N then Some (n - 48)%N
  else if (97 <=? n)%N && (n <=? 102)%N then Some (n - 87)%N
  else if (65 <=? n)%N && (n <=? 70)%N then Some (n - 55)%N
  else None.

(** Two hexadecimal digits as one colour channel. *)
Definition hex_byte (hi lo : ascii) : option N :=
  h ← hex_digit hi; l ← hex_digit lo; Some (16 * h + l)%N.

(** The colour literal [#rrggbb] read as its three channels; anything else
    is rejected. *)
Definition parse_hex_color (s : string) : option (N * N * N) :=
  match list_ascii_of_string s with
  | [hash; r1; r2; g1; g2; b1; b2] =>
      if Ascii.eqb hash "#" then
        r ← hex_byte r1 r2; g ← hex_byte g1 g2; b ← hex_byte b1 b2;
        Some (r, g, b)
      else None
  | _ => None
  end.

(** The characters that count as hexadecimal digits. *)
Definition hex_alphabet : list ascii :=
  list_ascii_of_string "0123456789abcdefABCDEF".

(** The format in words: a ['#'] followed by exactly six hexadecimal
    digits. *)
Definition hash_six_hex (s : string) : Prop :=
  ∃ ds, s = String "#" (string_of_list_ascii ds)
        ∧ length ds = 6
        ∧ Forall (λ c, c ∈ hex_alphabet) ds.

(** The two shapes a colour entry may take. *)
Inductive color_shape : Type :=
| Single (literal : string)
| Shades (variants : list (string * string)).

Definition shade_entry (kv : string * value) : option (string * string) :=
  match kv.2 with
  | VStr s => Some (kv.1, s)
  | _ => None
  end.

Definition classify (v : value) : option color_shape :=
  match v with
  | VStr s => Some (Single s)
  | VObj props => Shades <$> mapM shade_entry props
  | _ => None
  end.


(** ** Glob patterns

    The consumer of the [content] list, the external build tool that
    checks and expands the glob patterns, is not part of the repository;
    the spec only says that each entry is a file-glob pattern that must be
    syntactically well-formed and that selects the template files to scan.
    [Glob] fixes the usual reading of such patterns: [/] separates path
    segments, a segment [**] stands for any number of directories, and
    inside a segment [*] is any run of characters, [?] any one character,
    [[...]] a character class and a backslash quotes the next character; a
    wildcard never matches the leading dot of a hidden name.  Brace
    alternation, extended groups and negated patterns are outside the
    modelled fragment and are rejected by the parser. *)

Abbreviation chars := list_ascii_of_string.

Module Glob.

Local Open Scope char_scope.
Local Open Scope list_scope.

Inductive token : Type :=
| TLit (c : ascii)
| TAny
| TStar
| TClass (negated : bool) (members : list ascii).

Inductive segment : Type :=
| Globstar
| Seg (ts : list token).

Definition pattern : Type := list segment.

(** The scanner is either between tokens or inside a bracket class. *)
Inductive mode : Type :=
| Plain
| InClass (negated : bool) (acc : list ascii).

(** Characters that open constructs outside the fragment. *)
Definition unsupported (c : ascii) : bool :=
  bool_decide (c ∈ ["{"; "}"; "("; ")"; "|"]).

(** Modelled from the spec: the scanner of the external tool is missing.
    The tokens of one path segment; [None] on a dangling backslash, an
    unclosed or unopened bracket, or an unsupported construct. *)
Fixpoint tokens (m : mode) (cs : list ascii) : option (list token) :=
  match cs with
  | [] =>
      match m with
      | Plain => Some []
      | InClass _ _ => None
      end
  | c :: cs' =>
      match m with
      | Plain =>
          if Ascii.eqb c "092" then
            match cs' with
            | [] => None
            | q :: cs'' => cons (TLit q) <$> tokens Plain cs''
            end
          else if Ascii.eqb c "*" then cons TStar <$> tokens Plain cs'
          else if Ascii.eqb c "?" then cons TAny <$> tokens Plain cs'
          else if Ascii.eqb c "[" then
            match cs' with
            | n :: cs'' =>
                if Ascii.eqb n "!" then tokens (InClass true []) cs''
                else tokens (InClass false []) cs'
            | [] => None
            end
          else if Ascii.eqb c "]" then None
          else if unsupported c then None
          else cons (TLit c) <$> tokens Plain cs'
      | InClass neg acc =>
          if Ascii.eqb c "]" then
            match acc with
            | [] => tokens (InClass neg [c]) cs'
            | _ :: _ => cons (TClass neg (rev acc)) <$> tokens Plain cs'
            end
          else tokens (InClass neg (c :: acc)) cs'
      end
  end.

(** The segments of a path or pattern: the pieces between the slashes. *)
Fixpoint split_slash (cs : list ascii) : list (list ascii) :=
  match cs with
  | [] => [[]]
  | c :: cs' =>
      if Ascii.eqb c "/" then [] :: split_slash cs'
      else match split_slash cs' with
           | seg :: segs => (c :: seg) :: segs
           | [] => [[c]]
           end
  end.

(** The path spelled by a list of segments. *)
Fixpoint join_slash (xs : list (list ascii)) : list ascii :=
  match xs with
  | [] => []
  | [x] => x
  | x :: xs' => x ++ "/" :: join_slash xs'
  end.

Definition parse_segment (cs : list ascii) : option segment :=
  if bool_decide (cs = ["*"; "*"]) then Some Globstar
  else Seg <$> tokens Plain cs.

(** Modelled from the spec: the glob parser of the external tool is
    missing.  A pattern is read segment by segment; the empty pattern and
    a negated pattern (leading [!]) are rejected. *)
Definition parse (s : string) : option pattern :=
  match list_ascii_of_string s with
  | [] => None
  | c :: cs =>
      if Ascii.eqb c "!" then None
      else mapM parse_segment (split_slash (c :: cs))
  end.

(** Modelled from the spec: the syntax check of the external tool is
    missing.  A pattern is syntactically well-formed when it parses. *)
Definition well_formed (s : string) : bool :=
  match parse s with
  | Some _ => true
  | None => false
  end.

(** Membership in a bracket class, with ranges [lo-hi]. *)
Fixpoint class_mem (c : ascii) (members : list ascii) : bool :=
  match members with
  | [] => false
  | lo :: rest =>
      match rest with
      | dash :: hi :: rest' =>
          if Ascii.eqb dash "-" then
            ((N_of_ascii lo <=? N_of_ascii c)%N && (N_of_ascii c <=? N_of_ascii hi)%N)
            || class_mem c rest'
          else Ascii.eqb c lo || class_mem c rest
      | _ => Ascii.eqb c lo || class_mem c rest
      end
  end.

(** One character against a token that consumes exactly one character. *)
Definition token_match (t : token) (c : ascii) : bool :=
  match t with
  | TLit l => Ascii.eqb l c
  | TAny => true
  | TClass neg ms => xorb neg (class_mem c ms)
  | TStar => false
  end.

(** Modelled from the spec: the matcher of the external tool is missing.
    A segment name against the tokens of a pattern segment. *)
Fixpoint seg_match (ts : list token) (cs : list ascii) : bool :=
  match ts with
  | [] => match cs with [] => true | _ :: _ => false end
  | TStar :: ts' =>
      (fix star (cs : list ascii) : bool :=
         seg_match ts' cs
         || match cs with
            | [] => false
            | _ :: cs' => star cs'
            end) cs
  | t :: ts' =>
      match cs with
      | [] => false
      | c :: cs' => token_match t c && seg_match ts' cs'
      end
  end.

(** A hidden name starts with a dot. *)
Definition hidden (cs : list ascii) : bool :=
  match cs with
  | c :: _ => Ascii.eqb c "."
  | [] => false
  end.

Definition literal_dot_first (ts : list token) : bool :=
  match ts with
  | TLit c :: _ => Ascii.eqb c "."
  | _ => false
  end.

(** A hidden name is matched only by a segment that spells the dot. *)
Definition segment_match (ts : list token) (cs : list ascii) : bool :=
  (if hidden cs then literal_dot_first ts else true) && seg_match ts cs.

(** Modelled from the spec: the matcher of the external tool is missing.
    The segments of a path against the segments of a pattern; [**] skips
    any number of directories that are not hidden. *)
Fixpoint path_match (p : pattern) (xs : list (list ascii)) : bool :=
  match p with
  | [] => match xs with [] => true | _ :: _ => false end
  | Globstar :: p' =>
      (fix skip (xs : list (list ascii)) : bool :=
         path_match p' xs
         || match xs with
            | [] => false
            | x :: xs' => negb (hidden x) && skip xs'
            end) xs
  | Seg ts :: p' =>
      match xs with
      | [] => false
      | x :: xs' => segment_match ts x && path_match p' xs'
      end
  end.

(** A leading [./] says nothing: it is dropped from pattern and path. *)
Definition strip_dot_pattern (p : pattern) : pattern :=
  match p with
  | Seg [TLit c] :: p' => if Ascii.eqb c "." then p' else p
  | _ => p
  end.

Definition strip_dot_path (xs : list (list ascii)) : list (list ascii) :=
  match xs with
  | [c] :: xs' => if Ascii.eqb c "." then xs' else xs
  | _ => xs
  end.

(** Modelled from the spec: the file selection of the external tool is
    missing.  Does the file at [path] (relative to the project root) match
    the glob pattern [pat]? *)
Definition glob_match (pat path : string) : bool :=
  match parse pat with
  | Some p =>
      path_match (strip_dot_pattern p)
                 (strip_dot_path (split_slash (list_ascii_of_string path)))
  | None => false
  end.

End Glob.

(** The patterns of the [content] list. *)
Definition content_patterns : list string :=
  omap (λ v, match v with VStr s => Some s | _ => None end) (values content).

(** The name of a directory below the templates directory, or the stem of
    a file name: no slash in it and no leading dot. *)
Definition plain_name (s : string) : Prop :=
  ("/"%char ∉ list_ascii_of_string s)
  ∧ Glob.hidden (list_ascii_of_string s) = false.

(** The relative paths of the HTML files under the templates directory:
    [templates/], any chain of directories, and a file name ending in
    [.html]; the path may be written with a leading [./]. *)
Definition html_under_templates (path : string) : Prop :=
  ∃ (dot : bool) (dirs : list string) (stem : string),
    path = (if dot then "./" else EmptyString) +:+ "templates/"
           +:+ String.concat EmptyString ((λ d, d +:+ "/") <$> dirs)
           +:+ stem +:+ ".html"
    ∧ Forall plain_name dirs
    ∧ plain_name stem
    ∧ stem ≠ EmptyString.

(** ** Evaluating the module body

    The module body is the single assignment [module.exports = {...}].
    An expression is a computation over the world it runs in (the globals,
    the module cache, the heap); the literal forms only build values, while
    an identifier, a call or a [require] would go through [effect]. *)

Module Body.

Section Body.

Context {world : Type}.

Definition comp (A : Type) : Type := world → world * A.

Definition ret {A : Type} (a : A) : comp A := λ w, (w, a).

Definition bind {A B : Type} (m : comp A) (f : A → comp B) : comp B :=
  λ w, let '(w', a) := m w in f a w'.

(** An expression whose value or effect depends on the world. *)
Definition effect (f : world → world * value) : comp value := f.

(** A string literal. *)
Definition str_lit (s : string) : comp value := ret (VStr s).

(** The elements of an array literal are evaluated left to right. *)
Fixpoint arr_items (es : list (comp value)) : comp (list value) :=
  match es with
  | [] => ret []
  | e :: es' => bind e (λ v, bind (arr_items es') (λ vs, ret (v :: vs)))
  end.

Definition arr_lit (es : list (comp value)) : comp value :=
  bind (arr_items es) (λ vs, ret (VArr vs)).

(** Defining the property [k]: a name already present keeps its place and
    takes the new value, a new name goes to the end. *)
Fixpoint define_prop (k : string) (v : value) (props : list (string * value))
    : list (string * value) :=
  match props with
  | [] => [(k, v)]
  | (k', v') :: rest =>
      if String.eqb k k' then (k', v) :: rest
      else (k', v') :: define_prop k v rest
  end.

(** The properties of an object literal are evaluated and defined in
    source order. *)
Fixpoint obj_props (ps : list (string * comp value)) (acc : list (string * value))
    : comp (list (string * value)) :=
  match ps with
  | [] => ret acc
  | (k, e) :: ps' => bind e (λ v, obj_props ps' (define_prop k v acc))
  end.

Definition obj_lit (ps : list (string * comp value)) : comp value :=
  bind (obj_props ps []) (λ props, ret (VObj props)).

(** The right-hand side of [module.exports = ...] (lines 2-21). *)
Definition module_body : comp value :=
  obj_lit
    [ ("darkMode", str_lit "class");
      ("content", arr_lit [ str_lit "./templates/**/*.html" ]);
      ("theme",
        obj_lit
          [ ("extend",
              obj_lit
                [ ("colors",
                    obj_lit
                      [ ("custom-blue",
                          obj_lit [ ("light", str_lit "#3b82f6");
                                    ("DEFAULT", str_lit "#2563eb");
                                    ("dark", str_lit "#1e40af") ]);
                        ("light-bg", str_lit "#ffffff");
                        ("light-text", str_lit "#1f2937");
                        ("dark-bg", str_lit "#111827");
                        ("dark-text", str_lit "#f9fafb") ]) ]) ]);
      ("plugins", arr_lit []) ].

End Body.

End Body.

(** ** Reading the configuration

    A consumer reads the exported object by a chain of steps, each the
    name of an own property of an object or the index of an element of an
    array.  A slot that holds a callable is where a read can run code: for
    an accessor the getter runs, and it may change the world and the
    object and return anything; what happens there is the parameter
    [callable].  A step that is not an own slot ends the chain with
    [None]: the inherited properties are not modelled. *)

Module Read.

Inductive step : Type :=
| Key (k : string)
| Index (i : nat).

(** The own slot a step selects. *)
Definition slot (s : step) (v : value) : option value :=
  match s with
  | Key k => get k v
  | Index i =>
      match v with
      | VArr xs => xs !! i
      | _ => None
      end
  end.

(** The content of the slots along a path, without running anything. *)
Fixpoint lookup (path : list step) (v : value) : option value :=
  match path with
  | [] => Some v
  | s :: path' =>
      match slot s v with
      | Some v' => lookup path' v'
      | None => None
      end
  end.

Section Read.

Context {world : Type}.

(** What a read of a slot holding the callable with source text [src]
    does, given the world and the exported object: the world and the
    object afterwards, and the value the read yields. *)
Variable callable : string → world * value → (world * value) * value.

Fixpoint read_from (path : list step) (cur : value) (st : world * value)
    : (world * value) * option value :=
  match path with
  | [] => (st, Some cur)
  | s :: path' =>
      match slot s cur with
      | Some (VFun src) =>
          let '(st', r) := callable src st in read_from path' r st'
      | Some v => read_from path' v st
      | None => (st, None)
      end
  end.

(** A chain of reads starting at the exported object held in [st]. *)
Definition read (path : list step) (st : world * value)
    : (world * value) * option value :=
  read_from path st.2 st.

End Read.

End Read.

(** ** Duplicate property names

    In an object literal a property name may be written twice; the later
    binding then wins.  [assoc] takes the first binding, [assoc_last] the
    last, as JavaScript does. *)

Fixpoint assoc_last (k : string) (props : list (string * value)) : option value :=
  match props with
  | [] => None
  | (k', v) :: rest =>
      match assoc_last k rest with
      | Some w => Some w
      | None => if String.eqb k k' then Some v else None
      end
  end.

Definition get_last (k : string) (v : value) : option value :=
  match v with
  | VObj props => assoc_last k props
  | _ => None
  end.



(** ** The colours as channels *)

(** The colour at a path below [colors], as its red, green and blue
    channels. *)
Definition color_at (path : list string) : option (N * N * N) :=
  match get_path path colors with
  | Some (VStr s) => parse_hex_color s
  | _ => None
  end.

(** All the colours of the extension, in source order. *)
Definition color_values : list (N * N * N) :=
  omap (λ v, match v with VStr s => parse_hex_color s | _ => None end)
       (leaves colors).

(** [a] is deeper than [b]: every channel of [a] is below that of [b]. *)
Definition deeper (a b : N * N * N) : bool :=
  let '(r1, g1, b1) := a in
  let '(r2, g2, b2) := b in
  (r1 <? r2)%N && (g1 <? g2)%N && (b1 <? b2)%N.

(** A blue: the blue channel is the strongest, the red one the weakest. *)
Definition is_blue (c : N * N * N) : bool :=
  let '(r, g, b) := c in (r <? g)%N && (g <? b)%N.
(** * Properties *)

(** ** Top-level structure *)

Lemma assoc_Some_elem k props v :
  assoc k props = Some v → (k, v) ∈ props.
Proof.
  induction props as [|[k' v'] rest IH]; simpl; [done|].
  destruct (String.eqb_spec k k') as [->|Hne].
  - intros [= ->]. left.
  - intros H. right. auto.
Qed.

Lemma assoc_None k props :
  assoc k props = None ↔ k ∉ props.*1.
Proof.
  induction props as [|[k' v'] rest IH]; simpl.
  - split; [intros _; apply not_elem_of_nil|done].
  - destruct (String.eqb_spec k k') as [->|Hne].
    + split; [done|]. intros H. exfalso. apply H. left.
    + rewrite IH, not_elem_of_cons. naive_solver.
Qed.

Lemma get_is_Some_keys k v :
  is_Some (get k v) ↔ k ∈ keys v.
Proof.
  destruct v as [s|b|xs|props|src]; simpl;
    try (split; [intros [? [=]]|intros H; by apply elem_of_nil in H]).
  destruct (assoc k props) eqn:E.
  - split; [intros _|eauto].
    apply assoc_Some_elem in E. apply list_elem_of_fmap. by exists (k, v).
  - apply assoc_None in E. split; [intros [? [=]]|done].
Qed.

(** C3: the exported object has exactly the four recognised top-level keys
    [darkMode], [content], [theme], [plugins] (each once, in this order):
    a name is an own key of the object if and only if it is one of the
    four. *)
Theorem top_level_keys_exact :
  keys module_exports = ["darkMode"; "content"; "theme"; "plugins"]
  ∧ NoDup (keys module_exports)
  ∧ list_to_set (keys module_exports) = recognized_keys
  ∧ (∀ k, k ∈ keys module_exports ↔ k ∈ recognized_keys).
Proof.
  assert (Hset : list_to_set (C:=gset string) (keys module_exports) = recognized_keys).
  { unfold recognized_keys. simpl. set_solver. }
  split_and!; [done| |done|].
  - simpl. repeat (apply NoDup_cons; split; [set_solver|]). apply NoDup_nil_2.
  - intros k. rewrite <- Hset. set_solver.
Qed.

(** C6: the dark-mode field is a boolean-or-string mode flag, and here it is
    the string ['class']. *)
Theorem dark_mode_is_class :
  ∃ flag, get "darkMode" module_exports = Some flag
          ∧ is_mode_flag flag = true
          ∧ flag = VStr "class".
Proof. by exists (VStr "class"). Qed.

(** C8: the plugins field is the empty list: no plugin is registered. *)
Theorem plugins_empty :
  ∃ ps, get "plugins" module_exports = Some ps
        ∧ ps = VArr []
        ∧ length (values ps) = 0.
Proof. by exists (VArr []). Qed.

(** ** Colour literals *)

Lemma hex_digit_alphabet c :
  is_Some (hex_digit c) ↔ c ∈ hex_alphabet.
Proof.
  split.
  - intros [d Hd]. unfold hex_digit in Hd.
    rewrite <- (ascii_N_embedding c).
    assert (N_of_ascii c < 256)%N as Hlt by apply N_ascii_bounded.
    revert Hd Hlt. generalize (N_of_ascii c). intros n Hd Hlt.
    repeat case_match; try discriminate; clear Hd;
      repeat match goal with
             | H : _ && _ = true |- _ => apply andb_prop in H; destruct H
             | H : (_ <=? _)%N = true |- _ => apply N.leb_le in H
             end.
    + assert (Hn : n ∈ (N.of_nat <$> seq 48 10)).
      { apply list_elem_of_fmap. exists (N.to_nat n). split; [lia|].
        apply elem_of_seq. lia. }
      vm_compute in Hn. unfold hex_alphabet.
      repeat (apply elem_of_cons in Hn as [->|Hn]; [vm_compute; set_solver|]).
      by apply elem_of_nil in Hn.
    + assert (Hn : n ∈ (N.of_nat <$> seq 97 6)).
      { apply list_elem_of_fmap. exists (N.to_nat n). split; [lia|].
        apply elem_of_seq. lia. }
      vm_compute in Hn. unfold hex_alphabet.
      repeat (apply elem_of_cons in Hn as [->|Hn]; [vm_compute; set_solver|]).
      by apply elem_of_nil in Hn.
    + assert (Hn : n ∈ (N.of_nat <$> seq 65 6)).
      { apply list_elem_of_fmap. exists (N.to_nat n). split; [lia|].
        apply elem_of_seq. lia. }
      vm_compute in Hn. unfold hex_alphabet.
      repeat (apply elem_of_cons in Hn as [->|Hn]; [vm_compute; set_solver|]).
      by apply elem_of_nil in Hn.
  - unfold hex_alphabet. intros H. vm_compute in H.
    repeat (apply elem_of_cons in H as [->|H]; [by eexists|]).
    by apply elem_of_nil in H.
Qed.

Lemma hex_byte_bound hi lo n :
  hex_byte hi lo = Some n → (n < 256)%N.
Proof.
  unfold hex_byte, hex_digit. intros H.
  repeat (case_match; simplify_option_eq);
    repeat match goal with
           | H : _ && _ = true |- _ => apply andb_prop in H; destruct H
           | H : (_ <=? _)%N = true |- _ => apply N.leb_le in H
           end; lia.
Qed.

Lemma hex_byte_is_Some hi lo :
  is_Some (hex_byte hi lo) ↔ hi ∈ hex_alphabet ∧ lo ∈ hex_alphabet.
Proof.
  rewrite <- !hex_digit_alphabet. unfold hex_byte. split.
  - intros [n Hn]. destruct (hex_digit hi), (hex_digit lo); naive_solver.
  - intros [[h ->] [l ->]]. by eexists.
Qed.

(** The parser accepts exactly the strings of the format. *)
Lemma parse_hex_color_spec s :
  is_Some (parse_hex_color s) ↔ hash_six_hex s.
Proof.
  unfold parse_hex_color, hash_six_hex. split.
  - intros [rgb H].
    destruct (list_ascii_of_string s) as [|hash [|r1 [|r2 [|g1 [|g2 [|b1 [|b2 [|]]]]]]]] eqn:E;
      try discriminate.
    destruct (Ascii.eqb_spec hash "#") as [->|]; [|discriminate].
    exists [r1; r2; g1; g2; b1; b2]. split_and!; [|done|].
    + rewrite <- (string_of_list_ascii_of_string s), E. done.
    + destruct (hex_byte r1 r2) eqn:Er; [|discriminate].
      destruct (hex_byte g1 g2) eqn:Eg; [|discriminate].
      destruct (hex_byte b1 b2) eqn:Eb; [|discriminate].
      assert (is_Some (hex_byte r1 r2)) as [??]%hex_byte_is_Some by eauto.
      assert (is_Some (hex_byte g1 g2)) as [??]%hex_byte_is_Some by eauto.
      assert (is_Some (hex_byte b1 b2)) as [??]%hex_byte_is_Some by eauto.
      repeat (apply Forall_cons_2; [done|]). apply Forall_nil_2.
  - intros (ds & -> & Hlen & Hhex).
    destruct ds as [|r1 [|r2 [|g1 [|g2 [|b1 [|b2 [|]]]]]]]; try discriminate.
    simpl.
    repeat match goal with
           | H : Forall _ (_ :: _) |- _ => apply Forall_cons in H as [? H]
           end.
    destruct (proj2 (hex_byte_is_Some r1 r2)) as [r ->]; [done|].
    destruct (proj2 (hex_byte_is_Some g1 g2)) as [g ->]; [done|].
    destruct (proj2 (hex_byte_is_Some b1 b2)) as [b ->]; [done|].
    by eexists.
Qed.

Example parse_hex_color_values :
  parse_hex_color "#ffffff" = Some (255, 255, 255)%N
  ∧ parse_hex_color "#3b82f6" = Some (59, 130, 246)%N
  ∧ parse_hex_color "#1E40AF" = Some (30, 64, 175)%N.
Proof. split_and!; reflexivity. Qed.

Example parse_hex_color_rejects :
  parse_hex_color <$> ["#fff"; "ffffff"; "#gggggg"; "#ffffff0"; EmptyString]
  = [None; None; None; None; None].
Proof. reflexivity. Qed.

Lemma parse_hex_color_channels s r g b :
  parse_hex_color s = Some (r, g, b) → (r < 256 ∧ g < 256 ∧ b < 256)%N.
Proof.
  unfold parse_hex_color. intros H.
  repeat (case_match; try discriminate).
  repeat match type of H with
         | context [hex_byte ?x ?y] =>
             let E := fresh "E" in
             destruct (hex_byte x y) eqn:E; simpl in H; [|discriminate];
             apply hex_byte_bound in E
         end.
  by injection H as <- <- <-.
Qed.

Lemma parse_hex_color_length s rgb :
  parse_hex_color s = Some rgb → String.length s = 7.
Proof.
  intros H. assert (is_Some (parse_hex_color s)) as (ds & -> & Hlen & _)%parse_hex_color_spec by eauto.
  simpl. rewrite <- Hlen. f_equal.
  clear. induction ds; simpl; congruence.
Qed.

(** C1: every colour value of the theme extension (the values of
    [light-bg], [light-text], [dark-bg], [dark-text] and the three shades of
    [custom-blue]) is a string that parses as a colour literal, that is a
    ['#'] followed by exactly six hexadecimal digits. *)
Theorem colors_are_hex_literals :
  Forall (λ v, ∃ s, v = VStr s ∧ is_Some (parse_hex_color s) ∧ hash_six_hex s)
         (leaves colors)
  ∧ leaves colors = [ VStr "#3b82f6"; VStr "#2563eb"; VStr "#1e40af";
                      VStr "#ffffff"; VStr "#1f2937"; VStr "#111827";
                      VStr "#f9fafb" ]
  ∧ get_path ["theme"; "extend"; "colors"] module_exports = Some colors.
Proof.
  split_and!; [|done|done].
  simpl. repeat apply Forall_cons_2; try apply Forall_nil_2;
    (eexists; split; [done|]);
    (split; [|apply parse_hex_color_spec]); by eexists.
Qed.

(** ** Shapes of the colour entries *)

(** C2: every colour name maps either to a single string literal or to a
    sub-mapping of shade variants whose values are string literals:
    [custom-blue] is of the second shape, [light-bg], [light-text],
    [dark-bg] and [dark-text] of the first, and there is no other entry. *)
Theorem color_entries_shapes :
  Forall (λ kv, is_Some (classify kv.2)) (entries colors)
  ∧ prod_map id classify <$> entries colors =
      [ ("custom-blue", Some (Shades [ ("light", "#3b82f6");
                                       ("DEFAULT", "#2563eb");
                                       ("dark", "#1e40af") ]));
        ("light-bg", Some (Single "#ffffff"));
        ("light-text", Some (Single "#1f2937"));
        ("dark-bg", Some (Single "#111827"));
        ("dark-text", Some (Single "#f9fafb")) ].
Proof.
  split; [|done].
  simpl. repeat apply Forall_cons_2; try apply Forall_nil_2; by eexists.
Qed.

(** C10: [custom-blue] is a sub-mapping with exactly the three shade keys
    [light], [DEFAULT] and [dark] (the default shade is the upper-case
    [DEFAULT]; there is no key [default]), and its three values [#3b82f6],
    [#2563eb], [#1e40af] are pairwise distinct. *)
Theorem custom_blue_shades :
  get_path ["theme"; "extend"; "colors"; "custom-blue"] module_exports
    = Some custom_blue
  ∧ keys custom_blue = ["light"; "DEFAULT"; "dark"]
  ∧ get "default" custom_blue = None
  ∧ values custom_blue = [VStr "#3b82f6"; VStr "#2563eb"; VStr "#1e40af"]
  ∧ NoDup (values custom_blue).
Proof.
  split_and!; try done.
  simpl. repeat (apply NoDup_cons; split; [set_solver|]). apply NoDup_nil_2.
Qed.

(** ** Glob patterns: splitting a path at the slashes *)

Module GlobFacts.
Import Glob.
Local Open Scope char_scope.
Local Open Scope list_scope.

Lemma split_slash_nonempty cs : split_slash cs ≠ [].
Proof.
  destruct cs as [|c cs]; simpl; [done|].
  destruct (Ascii.eqb c "/"); [done|]. by destruct (split_slash cs).
Qed.

Lemma split_slash_cons c cs :
  "/" ≠ c →
  split_slash (c :: cs) = (c :: hd [] (split_slash cs)) :: tl (split_slash cs).
Proof.
  intros Hc. simpl. destruct (Ascii.eqb_spec c "/"); [done|].
  pose proof (split_slash_nonempty cs). by destruct (split_slash cs).
Qed.

Lemma split_slash_segment seg rest :
  "/" ∉ seg →
  split_slash (seg ++ "/" :: rest) = seg :: split_slash rest.
Proof.
  induction seg as [|c seg IH]; intros Hno.
  - done.
  - apply not_elem_of_cons in Hno as [Hc Hno].
    change (split_slash (c :: (seg ++ "/" :: rest)) = (c :: seg) :: split_slash rest).
    rewrite split_slash_cons, IH by done. done.
Qed.

Lemma split_slash_last seg :
  "/" ∉ seg → split_slash seg = [seg].
Proof.
  induction seg as [|c seg IH]; intros Hno; [done|].
  apply not_elem_of_cons in Hno as [Hc Hno].
  rewrite split_slash_cons, IH by done. done.
Qed.

Lemma split_slash_no_slash cs :
  Forall (λ seg, "/" ∉ seg) (split_slash cs).
Proof.
  induction cs as [|c cs IH]; simpl.
  - apply Forall_singleton, not_elem_of_nil.
  - destruct (Ascii.eqb_spec c "/") as [->|Hc].
    + apply Forall_cons_2; [apply not_elem_of_nil|done].
    + pose proof (split_slash_nonempty cs).
      destruct (split_slash cs) as [|seg segs]; [done|].
      apply Forall_cons in IH as [Hseg Hsegs].
      apply Forall_cons_2; [|done]. by apply not_elem_of_cons.
Qed.

Lemma join_split_slash cs : join_slash (split_slash cs) = cs.
Proof.
  induction cs as [|c cs IH]; simpl; [done|].
  destruct (Ascii.eqb_spec c "/") as [->|Hc].
  - pose proof (split_slash_nonempty cs).
    simpl. destruct (split_slash cs); [done|]. by rewrite IH.
  - pose proof (split_slash_nonempty cs).
    destruct (split_slash cs) as [|seg segs]; [done|].
    rewrite <- IH. by destruct segs.
Qed.

Lemma join_slash_cons x xs :
  xs ≠ [] → join_slash (x :: xs) = x ++ "/" :: join_slash xs.
Proof. by destruct xs. Qed.

Lemma join_slash_dirs ds file :
  join_slash (ds ++ [file]) = concat ((λ d, d ++ ["/"]) <$> ds) ++ file.
Proof.
  induction ds as [|d ds IH]; [done|].
  change (join_slash (d :: (ds ++ [file])) = concat ((λ d, d ++ ["/"]) <$> d :: ds) ++ file).
  rewrite join_slash_cons
    by (intros H; apply app_eq_nil in H as [_ H]; discriminate H).
  rewrite IH. simpl. by rewrite <- !app_assoc.
Qed.

Lemma split_slash_dirs ds file :
  Forall (λ d, "/" ∉ d) ds → "/" ∉ file →
  split_slash (concat ((λ d, d ++ ["/"]) <$> ds) ++ file) = ds ++ [file].
Proof.
  intros Hds Hfile. induction Hds as [|d ds Hd Hds IH].
  - by apply split_slash_last.
  - rewrite fmap_cons, concat_cons, <- !app_assoc.
    etrans; [exact (split_slash_segment d _ Hd)|]. by rewrite IH.
Qed.

(** *** Matching inside a segment *)

Lemma seg_match_literals l cs :
  seg_match (TLit <$> l) cs = true ↔ cs = l.
Proof.
  revert cs. induction l as [|a l IH]; intros [|c cs]; simpl; try done.
  rewrite andb_true_iff, IH. split.
  - intros [->%Ascii.eqb_eq ->]. done.
  - intros [= -> ->]. by rewrite Ascii.eqb_refl.
Qed.

Lemma seg_match_star ts cs :
  seg_match (TStar :: ts) cs = true
  ↔ ∃ pre suf, cs = pre ++ suf ∧ seg_match ts suf = true.
Proof.
  induction cs as [|c cs IH].
  - simpl. rewrite orb_false_r. split.
    + intros H. by exists [], [].
    + intros (pre & suf & Hcs & H). symmetry in Hcs.
      apply app_eq_nil in Hcs as [-> ->]. done.
  - change (seg_match (TStar :: ts) (c :: cs))
      with (seg_match ts (c :: cs) || seg_match (TStar :: ts) cs).
    rewrite orb_true_iff, IH. split.
    + intros [H|(pre & suf & -> & H)].
      * by exists [], (c :: cs).
      * by exists (c :: pre), suf.
    + intros ([|c' pre] & suf & Hcs & H).
      * left. by rewrite Hcs.
      * right. injection Hcs as -> ->. by exists pre, suf.
Qed.

(** *** Matching across segments *)

Lemma path_match_globstar p xs :
  path_match (Globstar :: p) xs = true
  ↔ ∃ ds rest, xs = ds ++ rest
               ∧ Forall (λ d, hidden d = false) ds
               ∧ path_match p rest = true.
Proof.
  induction xs as [|x xs IH].
  - simpl. rewrite orb_false_r. split.
    + intros H. by exists [], [].
    + intros (ds & rest & Hxs & _ & H). symmetry in Hxs.
      apply app_eq_nil in Hxs as [-> ->]. done.
  - change (path_match (Globstar :: p) (x :: xs))
      with (path_match p (x :: xs)
            || negb (hidden x) && path_match (Globstar :: p) xs).
    rewrite orb_true_iff, andb_true_iff, negb_true_iff, IH. split.
    + intros [H|[Hx (ds & rest & -> & Hds & H)]].
      * by exists [], (x :: xs).
      * exists (x :: ds), rest. split_and!; [done| |done].
        by apply Forall_cons_2.
    + intros ([|d ds] & rest & Hxs & Hds & H).
      * left. by rewrite Hxs.
      * right. injection Hxs as -> ->.
        apply Forall_cons in Hds as [Hd Hds]. split; [done|].
        by exists ds, rest.
Qed.

(** *** Scanning a segment *)

(** A segment without backslash, brackets or unsupported characters always
    scans: every character is a literal except [*] and [?]. *)
Lemma tokens_plain cs :
  Forall (λ c, c ∉ ["092"; "["; "]"; "{"; "}"; "("; ")"; "|"]) cs →
  tokens Plain cs
  = Some ((λ c, if Ascii.eqb c "*" then TStar
                else if Ascii.eqb c "?" then TAny else TLit c) <$> cs).
Proof.
  induction 1 as [|c cs Hc _ IH]; [done|].
  cbn [tokens]. rewrite IH, fmap_cons.
  destruct (Ascii.eqb_spec c "092") as [->|_]; [set_solver|].
  destruct (Ascii.eqb_spec c "*") as [->|_]; [done|].
  destruct (Ascii.eqb_spec c "?") as [->|_]; [done|].
  destruct (Ascii.eqb_spec c "[") as [->|_]; [set_solver|].
  destruct (Ascii.eqb_spec c "]") as [->|_]; [set_solver|].
  unfold unsupported. rewrite bool_decide_false by set_solver. done.
Qed.

Example ill_formed_patterns :
  well_formed <$> ["a[b"; "a]"; "[]"; String "a" (String "092" EmptyString); "{a,b}"; "!x"; EmptyString]%string
  = [false; false; false; false; false; false; false].
Proof. reflexivity. Qed.

Example well_formed_patterns :
  well_formed <$> ["a[!b-d]c"; "[]]"; "**/x?y"; "src/*.js"]%string
  = [true; true; true; true].
Proof. reflexivity. Qed.

Example class_pattern_matches :
  glob_match "x[!b-d]?" "xaz" = true ∧ glob_match "x[!b-d]?" "xcz" = false.
Proof. split; reflexivity. Qed.

(** *** Strings and their characters *)

Lemma chars_app (a b : string) : chars (a +:+ b) = chars a ++ chars b.
Proof. induction a as [|c a IH]; simpl; [done|]. by rewrite IH. Qed.

Lemma chars_concat_dirs (dirs : list string) :
  chars (String.concat EmptyString ((λ d, d +:+ "/") <$> dirs)%string)
  = concat ((λ d, d ++ ["/"]) <$> (list_ascii_of_string <$> dirs)).
Proof.
  induction dirs as [|d dirs IH]; [done|].
  rewrite !fmap_cons, concat_cons, <- IH.
  destruct dirs as [|d' dirs].
  - simpl. by rewrite chars_app, app_nil_r.
  - change (String.concat EmptyString ((d +:+ "/") :: ?l)%string)
      with ((d +:+ "/") +:+ EmptyString +:+ String.concat EmptyString l)%string.
    by rewrite !chars_app.
Qed.

Lemma chars_inj (a b : string) : chars a = chars b → a = b.
Proof.
  intros H. rewrite <- (string_of_list_ascii_of_string a), H.
  apply string_of_list_ascii_of_string.
Qed.

Lemma chars_of_strings (ds : list (list ascii)) :
  list_ascii_of_string <$> (string_of_list_ascii <$> ds) = ds.
Proof.
  induction ds as [|d ds IH]; [done|].
  by rewrite !fmap_cons, IH, list_ascii_of_string_of_list_ascii.
Qed.

(** *** The pattern of the configuration *)

Lemma segment_match_literals l x :
  literal_dot_first (TLit <$> l) = false →
  hidden l = false →
  segment_match (TLit <$> l) x = true ↔ x = l.
Proof.
  intros Hdot Hl. unfold segment_match. rewrite andb_true_iff, seg_match_literals.
  split; [tauto|]. intros ->. by rewrite Hl.
Qed.

Lemma segment_match_suffix l x :
  segment_match (TStar :: (TLit <$> l)) x = true
  ↔ hidden x = false ∧ ∃ stem, x = stem ++ l.
Proof.
  unfold segment_match. rewrite andb_true_iff, seg_match_star.
  change (literal_dot_first (TStar :: _)) with false.
  split.
  - intros [Hh (pre & suf & -> & ->%seg_match_literals)].
    destruct (hidden (pre ++ l)); [done|]. eauto.
  - intros [Hh [stem ->]]. rewrite Hh. split; [done|].
    exists stem, l. split; [done|]. by apply seg_match_literals.
Qed.

Lemma path_match_single ts xs :
  path_match [Seg ts] xs = true ↔ ∃ x, xs = [x] ∧ segment_match ts x = true.
Proof.
  destruct xs as [|x [|y xs]]; simpl.
  - split; [done|]. by intros (? & [=] & _).
  - rewrite andb_true_r. split; [eauto|]. by intros (? & [= <-] & ?).
  - rewrite andb_false_r. split; [done|]. by intros (? & [=] & _).
Qed.

Lemma path_match_templates xs :
  path_match [ Seg (TLit <$> chars "templates");
               Globstar;
               Seg (TStar :: (TLit <$> chars ".html")) ] xs = true
  ↔ ∃ ds stem,
      xs = chars "templates" :: ds ++ [stem ++ chars ".html"]
      ∧ Forall (λ d, hidden d = false) ds
      ∧ hidden (stem ++ chars ".html") = false.
Proof.
  destruct xs as [|x xs].
  { split; [done|]. by intros (? & ? & [=] & _). }
  change (path_match (Seg ?ts :: ?p) (x :: xs))
    with (segment_match ts x && path_match p xs).
  rewrite andb_true_iff, segment_match_literals, path_match_globstar by done.
  split.
  - intros [-> (ds & rest & -> & Hds & Hrest)].
    apply path_match_single in Hrest as (file & -> & Hfile).
    apply segment_match_suffix in Hfile as [Hh [stem ->]].
    by exists ds, stem.
  - intros (ds & stem & [= -> ->] & Hds & Hh). split; [done|].
    exists ds, [stem ++ chars ".html"]. split_and!; [done..|].
    apply path_match_single. eexists. split; [done|].
    apply segment_match_suffix. eauto.
Qed.

Lemma strip_dot_path_cases xs :
  xs = ["."] :: strip_dot_path xs ∨ strip_dot_path xs = xs.
Proof.
  destruct xs as [|[|c [|]] xs]; simpl; auto.
  destruct (Ascii.eqb_spec c "."); subst; auto.
Qed.

Lemma hidden_app_nonempty (stem l : list ascii) :
  hidden l = true → hidden (stem ++ l) = false →
  stem ≠ [] ∧ hidden stem = false.
Proof. destruct stem; simpl; [congruence|done]. Qed.

Lemma hidden_app_plain (stem l : list ascii) :
  stem ≠ [] → hidden stem = false → hidden (stem ++ l) = false.
Proof. by destruct stem. Qed.

(** The pattern of the configuration selects exactly the HTML files under
    the templates directory. *)
Lemma glob_match_templates path :
  glob_match "./templates/**/*.html" path = true ↔ html_under_templates path.
Proof.
  unfold glob_match.
  change (parse "./templates/**/*.html")
    with (Some [ Seg [TLit "."]; Seg (TLit <$> chars "templates");
                 Globstar; Seg (TStar :: (TLit <$> chars ".html")) ]).
  change (strip_dot_pattern (Seg [TLit "."] :: ?p)) with p.
  rewrite path_match_templates. split.
  - intros (ds & stem & Hsegs & Hds & Hh).
    pose proof (split_slash_no_slash (chars path)) as Hno.
    pose proof (join_split_slash (chars path)) as Hjoin.
    assert (Hno' : Forall (λ seg, "/" ∉ seg) (ds ++ [stem ++ chars ".html"])).
    { destruct (strip_dot_path_cases (split_slash (chars path))) as [E|E].
      - rewrite E, Hsegs in Hno.
        by apply Forall_cons in Hno as [_ [_ ?]%Forall_cons].
      - rewrite <- E, Hsegs in Hno. by apply Forall_cons in Hno as [_ ?]. }
    apply Forall_app in Hno' as [Hnods [Hnof _]%Forall_cons].
    apply not_elem_of_app in Hnof as [Hnostem _].
    apply hidden_app_nonempty in Hh as [Hne Hhs]; [|done].
    exists (bool_decide (split_slash (chars path) ≠ strip_dot_path (split_slash (chars path)))),
      (string_of_list_ascii <$> ds), (string_of_list_ascii stem).
    split_and!.
    + apply chars_inj. rewrite !chars_app, chars_concat_dirs.
      rewrite chars_of_strings, list_ascii_of_string_of_list_ascii.
      rewrite <- Hjoin at 1.
      destruct (strip_dot_path_cases (split_slash (chars path))) as [E|E].
      * rewrite bool_decide_true.
        2:{ rewrite E at 1. intros H%(f_equal length). simpl in H. lia. }
        rewrite E, Hsegs. rewrite join_slash_cons by done.
        rewrite join_slash_cons
          by (intros H; apply app_eq_nil in H as [_ H]; discriminate H).
        by rewrite join_slash_dirs.
      * rewrite bool_decide_false by (by rewrite E; intros []).
        rewrite <- E, Hsegs. rewrite join_slash_cons
          by (intros H; apply app_eq_nil in H as [_ H]; discriminate H).
        by rewrite join_slash_dirs.
    + apply Forall_fmap, Forall_forall. intros d Hd.
      rewrite Forall_forall in Hnods, Hds.
      unfold plain_name. simpl. rewrite list_ascii_of_string_of_list_ascii. auto.
    + unfold plain_name. by rewrite list_ascii_of_string_of_list_ascii.
    + intros H. apply Hne.
      by rewrite <- (list_ascii_of_string_of_list_ascii stem), H.
  - intros (dot & dirs & stem & -> & Hdirs & [Hstem Hhs] & Hne).
    exists (chars <$> dirs), (chars stem).
    assert (Hsplit :
      split_slash (chars ("templates/" +:+ String.concat EmptyString ((λ d, d +:+ "/") <$> dirs)
                            +:+ stem +:+ ".html"))
      = chars "templates" :: (chars <$> dirs) ++ [chars stem ++ chars ".html"]).
    { rewrite !chars_app, chars_concat_dirs.
      etrans; [apply (split_slash_segment (chars "templates")); vm_compute; set_solver|].
      f_equal. apply split_slash_dirs.
      - apply Forall_fmap. eapply Forall_impl; [exact Hdirs|]. by intros d [??].
      - apply not_elem_of_app. split; [done|]. vm_compute. set_solver. }
    split_and!.
    + destruct dot.
      * rewrite (chars_app "./").
        etrans; [|exact Hsplit]. 
        change (chars "./" ++ ?r) with (["."] ++ "/" :: r).
        rewrite split_slash_segment by set_solver. done.
      * change (EmptyString +:+ ?x)%string with x. rewrite Hsplit. done.
    + apply Forall_fmap. eapply Forall_impl; [exact Hdirs|]. by intros d [??].
    + apply hidden_app_plain; [|done]. intros H. apply Hne.
      by rewrite <- (string_of_list_ascii_of_string stem), H.
Qed.

Example templates_pattern_paths :
  (λ path, glob_match "./templates/**/*.html" path)
    <$> [ "./templates/index.html"; "templates/a/b/index.html";
          "templates/.html"; "templates/.git/a.html";
          "static/a.html"; "templates/a.css"; "templates" ]%string
  = [true; true; false; false; false; false; false].
Proof. reflexivity. Qed.

End GlobFacts.

(** ** Literal data *)

Lemma literal_data_leaves v :
  literal_data v = true → Forall (λ l, is_string l = true) (leaves v).
Proof.
  induction v as [s|b|xs IH|props IH|src] using value_ind; simpl; try done.
  - intros _. by apply Forall_singleton.
  - intros Hall. apply Forall_concat, Forall_fmap.
    induction IH as [|x xs Hx _ IHxs]; [done|].
    simpl in Hall. apply andb_prop in Hall as [??].
    apply Forall_cons_2; auto.
  - intros Hall. apply Forall_concat, Forall_fmap.
    induction IH as [|kv props Hkv _ IHprops]; [done|].
    simpl in Hall. apply andb_prop in Hall as [??].
    apply Forall_cons_2; auto.
Qed.

Lemma literal_data_assoc k props v :
  forallb (λ kv, literal_data kv.2) props = true →
  assoc k props = Some v → literal_data v = true.
Proof.
  induction props as [|[k' v'] props IH]; simpl; [done|].
  intros [??]%andb_prop. destruct (String.eqb k k'); [|by auto].
  by intros [= <-].
Qed.

(** An own-property lookup on literal data only ever reaches literal
    data. *)
Lemma literal_data_get_path path v w :
  literal_data v = true → get_path path v = Some w → literal_data w = true.
Proof.
  revert v. induction path as [|k path IH]; intros v Hv; simpl.
  - by intros [= <-].
  - destruct (get k v) as [v'|] eqn:E; [|done].
    apply IH. destruct v; try done. simpl in *. eauto using literal_data_assoc.
Qed.

(** ** The content list *)

(** C4: every glob pattern of the content list is syntactically well
    formed; the list's sole entry is ["./templates/**/*.html"], which reads
    as the segments [.], [templates], [**] and [*.html]. *)
Theorem content_globs_well_formed :
  content_patterns = ["./templates/**/*.html"]
  ∧ length content_patterns = length (values content)
  ∧ Forall (λ pat, Glob.well_formed pat = true) content_patterns
  ∧ Glob.parse "./templates/**/*.html"
    = Some [ Glob.Seg [Glob.TLit "."];
             Glob.Seg (Glob.TLit <$> chars "templates");
             Glob.Globstar;
             Glob.Seg (Glob.TStar :: (Glob.TLit <$> chars ".html")) ].
Proof.
  split_and!; try done. by apply Forall_singleton.
Qed.

(** C5: the content field is the one-element list
    [["./templates/**/*.html"]] of file-glob patterns, and its only pattern
    matches exactly the HTML files under the templates directory. *)
Theorem content_selects_templates :
  get "content" module_exports = Some (VArr [VStr "./templates/**/*.html"])
  ∧ content_patterns = ["./templates/**/*.html"]
  ∧ (∀ path, Glob.glob_match "./templates/**/*.html" path = true
             ↔ html_under_templates path).
Proof.
  split_and!; [done|done|]. apply GlobFacts.glob_match_templates.
Qed.

(** ** Evaluating literals and reading literal data *)

Module BodyFacts.
Import Body.

Lemma define_prop_fresh k v props :
  k ∉ props.*1 → define_prop k v props = props ++ [(k, v)].
Proof.
  induction props as [|[k' v'] props IH]; [done|].
  rewrite fmap_cons. intros [Hne Hfresh]%not_elem_of_cons. simpl in *.
  destruct (String.eqb_spec k k'); [done|]. by rewrite IH.
Qed.

(** An object literal whose names are distinct and whose initialisers
    leave the world alone evaluates to the object of their values, in every
    world, and leaves the world alone. *)
Lemma obj_props_pure {world : Type} (ps : list (string * comp value))
    (props acc : list (string * value)) (w : world) :
  Forall2 (λ p kv, p.1 = kv.1 ∧ ∀ w', p.2 w' = (w', kv.2)) ps props →
  NoDup (acc.*1 ++ props.*1) →
  obj_props ps acc w = (w, acc ++ props).
Proof.
  intros Hps. revert acc. induction Hps as [|[k e] [k' v] ps props [Hk He] _ IH];
    intros acc Hnd.
  - by rewrite app_nil_r.
  - simpl in Hk, He. subst k'. cbn [obj_props]. unfold bind. rewrite He.
    rewrite fmap_cons in Hnd. simpl in Hnd.
    rewrite define_prop_fresh.
    2:{ apply NoDup_app in Hnd as (_ & Hdisj & _). intros Hin.
        apply (Hdisj k Hin). left. }
    rewrite IH.
    + by rewrite <- app_assoc.
    + rewrite fmap_app. simpl. rewrite <- app_assoc. done.
Qed.

Lemma obj_lit_pure {world : Type} (ps : list (string * comp value))
    (props : list (string * value)) (w : world) :
  Forall2 (λ p kv, p.1 = kv.1 ∧ ∀ w', p.2 w' = (w', kv.2)) ps props →
  NoDup props.*1 →
  obj_lit ps w = (w, VObj props).
Proof.
  intros Hps Hnd. unfold obj_lit, bind.
  by rewrite (obj_props_pure ps props [] w Hps Hnd).
Qed.

Lemma arr_lit_pure {world : Type} (es : list (comp value)) (vs : list value)
    (w : world) :
  Forall2 (λ e v, ∀ w', e w' = (w', v)) es vs →
  arr_lit es w = (w, VArr vs).
Proof.
  intros Hes. unfold arr_lit, bind.
  assert (arr_items es w = (w, vs)) as ->; [|done].
  induction Hes as [|e v es vs He _ IH]; [done|].
  cbn [arr_items]. unfold bind. by rewrite He, IH.
Qed.

(** An initialiser that reads the world makes the export depend on it. *)
Example effectful_body_depends_on_world :
  (obj_lit [("plugins", effect (λ w : list value, (w, VArr w)))] []).2
  ≠ (obj_lit [("plugins", effect (λ w : list value, (w, VArr w)))]
       [VFun "require('forms')"]).2.
Proof. discriminate. Qed.

(** A repeated name keeps its place and takes the later value. *)
Example repeated_name_defined_once :
  obj_lit (world:=unit) [("a", str_lit "1"); ("b", str_lit "2"); ("a", str_lit "3")] ()
  = ((), VObj [("a", VStr "3"); ("b", VStr "2")]).
Proof. reflexivity. Qed.

End BodyFacts.

Module ReadFacts.
Import Read.

Lemma literal_data_slot s v v' :
  literal_data v = true → slot s v = Some v' → literal_data v' = true.
Proof.
  destruct s as [k|i], v as [?|?|xs|props|?]; simpl; try done.
  - intros. by eapply literal_data_assoc.
  - intros Hall Hi. rewrite forallb_forall in Hall. apply Hall.
    apply list_elem_of_In. by eapply list_elem_of_lookup_2.
Qed.

(** On literal data a read runs nothing: it leaves world and object as
    they are and yields the content of the slot. *)
Lemma read_from_literal {world : Type}
    (callable : string → world * value → (world * value) * value)
    path cur st :
  literal_data cur = true →
  read_from callable path cur st = (st, lookup path cur).
Proof.
  revert cur. induction path as [|s path IH]; intros cur Hcur; [done|].
  cbn [read_from lookup].
  destruct (slot s cur) as [v|] eqn:E; [|done].
  pose proof (literal_data_slot s cur v Hcur E) as Hv.
  destruct v; try done; by apply IH.
Qed.

Lemma literal_data_lookup path v v' :
  literal_data v = true → lookup path v = Some v' → literal_data v' = true.
Proof.
  revert v. induction path as [|s path IH]; intros v Hv; simpl.
  - by intros [= <-].
  - destruct (slot s v) as [u|] eqn:E; [|done].
    apply IH. by eapply literal_data_slot.
Qed.

(** With an accessor in the object a read does run code: here the getter
    counts its calls in the world, so two reads differ. *)
Example accessor_read_runs_code :
  let counter (src : string) (st : nat * value) :=
    ((S st.1, st.2), if Nat.even st.1 then VStr "even" else VStr "odd") in
  let o := VObj [("parity", VFun "get parity() { ... }")] in
  read counter [Key "parity"] (0, o) = ((1, o), Some (VStr "even"))
  ∧ read counter [Key "parity"] (1, o) = ((2, o), Some (VStr "odd")).
Proof. split; reflexivity. Qed.

End ReadFacts.

(** C7: the module body is one literal: evaluated in any world it leaves
    the world alone and yields the same fixed record; all leaves of the
    record are string literals, never functions; so whatever reading a
    callable slot would do, a chain of reads leaves the world and the
    record as they were, two reads of the same path yield equal values,
    and a read along own properties and elements yields the data written
    in the literal. *)
Theorem config_is_constant_data {world : Type}
    (callable : string → world * value → (world * value) * value)
    (w : world) (p q : list Read.step) :
  Body.module_body w = (w, module_exports)
  ∧ literal_data module_exports = true
  ∧ Forall (λ l, is_string l = true) (leaves module_exports)
  ∧ (Read.read callable p (w, module_exports)).1 = (w, module_exports)
  ∧ (Read.read callable p (Read.read callable q (w, module_exports)).1).2
    = (Read.read callable p (w, module_exports)).2
  ∧ match Read.lookup p module_exports with
    | Some v => (Read.read callable p (w, module_exports)).2 = Some v
                ∧ literal_data v = true
    | None => True
    end.
Proof.
  assert (Hlit : literal_data module_exports = true) by done.
  assert (Hread : ∀ path, Read.read callable path (w, module_exports)
                          = ((w, module_exports), Read.lookup path module_exports)).
  { intros path. unfold Read.read. by apply ReadFacts.read_from_literal. }
  split_and!.
  - reflexivity.
  - done.
  - by apply literal_data_leaves.
  - by rewrite Hread.
  - rewrite (Hread q). cbn [fst]. by rewrite Hread.
  - rewrite Hread. destruct (Read.lookup p module_exports) as [v|] eqn:E; [|done].
    split; [done|]. by apply (ReadFacts.literal_data_lookup p module_exports v).
Qed.

(** X5: the theme names no scale of its own: its single own key is
    [extend], the single own key of the extension is [colors], and the
    colour extension holds exactly the five custom names. *)
Theorem theme_has_only_extend :
  get "theme" module_exports = Some theme
  ∧ keys theme = ["extend"]
  ∧ get "extend" theme = Some extend
  ∧ keys extend = ["colors"]
  ∧ get "colors" extend = Some colors
  ∧ keys colors = ["custom-blue"; "light-bg"; "light-text"; "dark-bg"; "dark-text"].
Proof. done. Qed.

(** ** Further properties of the literal *)




(** With a repeated name the two readings differ. *)
Example repeated_name_last_wins :
  get_last "a" (VObj [("a", VStr "1"); ("a", VStr "2")]) = Some (VStr "2")
  ∧ get "a" (VObj [("a", VStr "1"); ("a", VStr "2")]) = Some (VStr "1").
Proof. done. Qed.


(** X2: as the comments on lines 9 and 11 say, the three shades of
    [custom-blue] are blues and get deeper from [light] over [DEFAULT] to
    [dark]: every channel of [dark] is below that of [DEFAULT], and every
    channel of [DEFAULT] below that of [light]. *)
Theorem custom_blue_shades_deepen :
  ∃ l d k,
    color_at ["custom-blue"; "light"] = Some l
    ∧ color_at ["custom-blue"; "DEFAULT"] = Some d
    ∧ color_at ["custom-blue"; "dark"] = Some k
    ∧ is_blue l = true ∧ is_blue d = true ∧ is_blue k = true
    ∧ deeper d l = true ∧ deeper k d = true.
Proof.
  exists (59, 130, 246)%N, (37, 99, 235)%N, (30, 64, 175)%N.
  split_and!; reflexivity.
Qed.

(** X3: the colours named for a mode have the polarity their names say:
    in light mode the text is deeper than the background, in dark mode the
    background is deeper than the text, and the dark background is deeper
    than the light one. *)
Theorem mode_colors_polarity :
  ∃ lb lt db dt,
    color_at ["light-bg"] = Some lb ∧ color_at ["light-text"] = Some lt
    ∧ color_at ["dark-bg"] = Some db ∧ color_at ["dark-text"] = Some dt
    ∧ deeper lt lb = true ∧ deeper db dt = true ∧ deeper db lb = true.
Proof.
  exists (255, 255, 255)%N, (31, 41, 55)%N, (17, 24, 39)%N, (249, 250, 251)%N.
  split_and!; reflexivity.
Qed.

(** X4: the seven colour values of the extension denote seven different
    colours: no two tokens share their channels. *)
Theorem color_values_distinct :
  length color_values = length (leaves colors)
  ∧ length color_values = 7
  ∧ NoDup color_values.
Proof.
  split_and!; [reflexivity..|].
  apply (bool_decide_unpack _). by vm_compute.
Qed.
